(** * go-testdeep: comparator, error rendering and three operators

    A shallow embedding of
    - [helpers/tdutil/sort.go], package tdutil: [SortableValues], [Less],
      [cmpRet], [cmpFloat], [cmp];
    - the same file, package ctxerr: [Error], [Error.Append];
    - [td_shallow.go]: [Shallow], [tdShallow.Match];
    - [td/td_tag.go]: [Tag], [tdTag.Match], [tdTag.TypeBehind];
    - [internal/dark/fatalizer.go], package td: [Delay],
      [tdDelay.getOperator] and the four protocol methods.

    Go's [reflect.Value] is a tagged union over a heap: pointers and slices
    carry addresses, so cyclic data is a finite heap with back references
    and the comparator recurses through heap look-ups. *)

From Stdlib Require Import ZArith Floats.SpecFloat.
From Stdlib Require Import Strings.Ascii Strings.HexString.
From stdpp Require Import gmap strings list fin_maps fin_sets.

Local Open Scope Z_scope.
Set Warnings "-register-all,-clear-no-such-hyp".

(** ** reflect: kinds, types and values *)

Inductive Kind :=
| KInvalid | KBool
| KInt | KInt8 | KInt16 | KInt32 | KInt64
| KUint | KUint8 | KUint16 | KUint32 | KUint64 | KUintptr
| KFloat32 | KFloat64 | KComplex64 | KComplex128
| KArray | KChan | KFunc | KInterface | KMap | KPtr | KSlice
| KString | KStruct | KUnsafePointer.

Global Instance Kind_eq_dec : EqDecision Kind.
Proof. solve_decision. Defined.

Inductive IntSize := I0 | I8 | I16 | I32 | I64.
Inductive UintSize := U0 | U8 | U16 | U32 | U64 | Uptr.
Inductive FloatSize := F32 | F64.

(** A [reflect.Type]: compared by identity ([at != bt]) and rendered by
    [String()]; two distinct types may render alike. *)
Record rtype := { type_id : Z; type_name : string }.

Global Instance rtype_eq_dec : EqDecision rtype.
Proof. solve_decision. Defined.

(** A [reflect.Value].  Items of arrays and fields of structs are held in
    place; the items of a slice live in the heap at [data], [data+1], ...;
    a pointer holds the address of its target, [0] for nil.  An interface
    holds its dynamic value ([Invalid] when nil) and the address of the
    interface word itself. *)
Inductive value :=
| Invalid
| VBool (t : rtype) (b : bool)
| VInt (t : rtype) (sz : IntSize) (n : Z)
| VUint (t : rtype) (sz : UintSize) (n : Z)
| VFloat (t : rtype) (sz : FloatSize) (f : spec_float)
| VComplex (t : rtype) (sz : FloatSize) (re im : spec_float)
| VString (t : rtype) (data : Z) (s : string)
| VArray (t : rtype) (items : list value)
| VSlice (t : rtype) (data : Z) (len : nat)
| VInterface (t : rtype) (addr : Z) (elem : value)
| VStruct (t : rtype) (fields : list value)
| VPtr (t : rtype) (p : Z)
| VMap (t : rtype) (p : Z) (len : nat)
| VFunc (t : rtype) (p : Z)
| VChan (t : rtype) (p : Z)
| VUnsafePointer (t : rtype) (p : Z).

Definition IsValid (v : value) : bool :=
  match v with Invalid => false | _ => true end.

Definition kind_of (v : value) : Kind :=
  match v with
  | Invalid => KInvalid
  | VBool _ _ => KBool
  | VInt _ sz _ =>
      match sz with I0 => KInt | I8 => KInt8 | I16 => KInt16
                  | I32 => KInt32 | I64 => KInt64 end
  | VUint _ sz _ =>
      match sz with U0 => KUint | U8 => KUint8 | U16 => KUint16
                  | U32 => KUint32 | U64 => KUint64 | Uptr => KUintptr end
  | VFloat _ sz _ => match sz with F32 => KFloat32 | F64 => KFloat64 end
  | VComplex _ sz _ _ =>
      match sz with F32 => KComplex64 | F64 => KComplex128 end
  | VString _ _ _ => KString
  | VArray _ _ => KArray
  | VSlice _ _ _ => KSlice
  | VInterface _ _ _ => KInterface
  | VStruct _ _ => KStruct
  | VPtr _ _ => KPtr
  | VMap _ _ _ => KMap
  | VFunc _ _ => KFunc
  | VChan _ _ => KChan
  | VUnsafePointer _ _ => KUnsafePointer
  end.

(** [Value.Type()]; it panics on the zero Value. *)
Definition type_of (v : value) : option rtype :=
  match v with
  | Invalid => None
  | VBool t _ | VInt t _ _ | VUint t _ _ | VFloat t _ _ | VComplex t _ _ _
  | VString t _ _ | VArray t _ | VSlice t _ _ | VInterface t _ _
  | VStruct t _ | VPtr t _ | VMap t _ _ | VFunc t _ | VChan t _
  | VUnsafePointer t _ => Some t
  end.

(** [Value.Pointer()]; it panics on every kind but these six. *)
Definition Pointer (v : value) : option Z :=
  match v with
  | VChan _ p | VFunc _ p | VMap _ p _ | VPtr _ p | VUnsafePointer _ p => Some p
  | VSlice _ d _ => Some d
  | _ => None
  end.

(** The heap: what a pointer or a slice item address holds. *)
Abbreviation heap := (gmap Z value).

(** ** internal/visited *)

Abbreviation Visited := (gset (Z * Z)).

Module visited.

Definition NewVisited : Visited := ∅.

(** The identity the guard keys a value by. *)
Definition identity (v : value) : option Z :=
  match v with
  | VPtr _ p | VMap _ p _ => Some p
  | VSlice _ d _ => Some d
  | VInterface _ a _ => Some a
  | _ => None
  end.

(** Modelled from the spec: [visited.Visited.Record], whose package is not
    among the sources.  The visited-pair set holds pairs (identity of left,
    identity of right); a pointer, map, slice or interface pair is recorded
    before it is descended into, and the call reports whether the pair was
    already present.  Values of other kinds are never recorded. *)
Definition Record (v : Visited) (a b : value) : bool * Visited :=
  match identity a, identity b with
  | Some ia, Some ib =>
      if decide ((ia, ib) ∈ v) then (true, v)
      else (false, {[ (ia, ib) ]} ∪ v)
  | _, _ => (false, v)
  end.

End visited.

(** ** helpers/tdutil/sort.go *)

Definition cmpRet (less gt : bool) : Z :=
  if less then -1 else if gt then 1 else 0.

Definition IsNaN (f : spec_float) : bool :=
  match f with S754_nan => true | _ => false end.

(** A float64 is an IEEE 754 value; [a > b] is written [b < a]. *)
Definition cmpFloat (a b : spec_float) : Z :=
  if IsNaN a then -1
  else if IsNaN b then 1
  else cmpRet (SFltb a b) (SFltb b a).

(** What a call yields: the returned int, a run-time panic, or no answer
    within the recursion budget. *)
Inductive outcome := Ret (r : Z) | Panic | OutOfFuel.

Global Instance outcome_eq_dec : EqDecision outcome.
Proof. solve_decision. Defined.

(** [for i := from; i < from+n; i++ { if r := body(i); r != 0 { return r } }]
    The visited set is threaded from one iteration to the next. *)
Fixpoint for_range (n : nat) (i : nat)
    (body : nat → Visited → outcome * Visited) (v : Visited)
    : outcome * Visited :=
  match n with
  | O => (Ret 0, v)
  | S n' =>
      match body i v with
      | (Ret 0, v') => for_range n' (S i) body v'
      | r => r
      end
  end.

(** [a.Index(i)] of a slice. *)
Definition slice_index (h : heap) (data : Z) (i : nat) : option value :=
  h !! (data + Z.of_nat i).

(** Both operands of a recursive call are fetched first ([a.Index(i)],
    [b.Index(i)], [a.Elem()], [b.Elem()]); a fetch that fails panics. *)
Definition on_both (xa xb : option value)
    (rec : Visited → value → value → outcome * Visited) (v : Visited)
    : outcome * Visited :=
  match xa, xb with
  | Some x, Some y => rec v x y
  | _, _ => (Panic, v)
  end.

(** "cmp returns -1 if a < b, 1 if a > b, 0 if a == b."  [x > y] is written
    [y < x].  Two values of one type have one kind; where the accessor of
    [a]'s kind does not fit [b], reflect panics. *)
Fixpoint cmp (fuel : nat) (h : heap) (v : Visited) (a b : value)
    : outcome * Visited :=
  match fuel with
  | O => (OutOfFuel, v)
  | S fuel' =>
    match type_of a, type_of b with
    | None, None => (Ret 0, v)
    | None, Some _ => (Ret (-1), v)
    | Some _, None => (Ret 1, v)
    | Some at_, Some bt =>
      if decide (at_ ≠ bt) then
        let sat := type_name at_ in
        let sbt := type_name bt in
        (Ret (cmpRet (String.ltb sat sbt) (String.ltb sbt sat)), v)
      else
      let '(seen, v) := visited.Record v a b in
      if seen then (Ret 0, v) else
      match a, b with
      | VBool _ x, VBool _ y =>
          (Ret (if x then (if y then 0 else 1) else (if y then -1 else 0)), v)
      | VInt _ _ na, VInt _ _ nb => (Ret (cmpRet (na <? nb) (nb <? na)), v)
      | VUint _ _ na, VUint _ _ nb => (Ret (cmpRet (na <? nb) (nb <? na)), v)
      | VFloat _ _ fa, VFloat _ _ fb => (Ret (cmpFloat fa fb), v)
      | VComplex _ _ ra ia, VComplex _ _ rb ib =>
          let r := cmpFloat ra rb in
          if decide (r ≠ 0) then (Ret r, v) else (Ret (cmpFloat ia ib), v)
      | VString _ _ sa, VString _ _ sb =>
          (Ret (cmpRet (String.ltb sa sb) (String.ltb sb sa)), v)
      | VArray _ xs, VArray _ ys =>
          for_range (length xs) 0
            (λ i v, on_both (xs !! i) (ys !! i) (cmp fuel' h) v) v
      | VSlice _ da al, VSlice _ db bl =>
          let maxl := if (bl <? al)%nat then bl else al in
          match for_range maxl 0
                  (λ i v, on_both (slice_index h da i) (slice_index h db i)
                            (cmp fuel' h) v) v with
          | (Ret 0, v') => (Ret (cmpRet (al <? bl)%nat (bl <? al)%nat), v')
          | r => r
          end
      | VInterface _ _ ea, VInterface _ _ eb =>
          if negb (IsValid ea) then
            (if negb (IsValid eb) then (Ret 0, v) else (Ret (-1), v))
          else if negb (IsValid eb) then (Ret 1, v)
          else cmp fuel' h v ea eb
      | VStruct _ xs, VStruct _ ys =>
          for_range (length xs) 0
            (λ i v, on_both (xs !! i) (ys !! i) (cmp fuel' h) v) v
      | VPtr _ pa, VPtr _ pb =>
          if decide (pa = pb) then (Ret 0, v)
          else if decide (pa = 0) then (Ret (-1), v)
          else if decide (pb = 0) then (Ret 1, v)
          else on_both (h !! pa) (h !! pb) (cmp fuel' h) v
      | VMap _ pa al, VMap _ pb bl =>
          let r := cmpRet (al <? bl)%nat (bl <? al)%nat in
          if decide (r ≠ 0) then (Ret r, v)
          else (Ret (cmpRet (pa <? pb) (pb <? pa)), v)
      | VFunc _ pa, VFunc _ pb
      | VChan _ pa, VChan _ pb
      | VUnsafePointer _ pa, VUnsafePointer _ pb =>
          (Ret (cmpRet (pa <? pb) (pb <? pa)), v)
      | _, _ => (Panic, v)
      end
    end
  end.

(** [rValues]: the values being sorted and the visited set that all the
    comparisons of one sort share.  [SortableValues] makes the set only for
    two values or more; with fewer, [Visited] stays nil. *)
Record rValues := { rv_Visited : option Visited; rv_Slice : list value }.

Definition SortableValues (s : list value) : rValues :=
  {| rv_Slice := s;
     rv_Visited := if (1 <? length s)%nat then Some visited.NewVisited
                   else None |}.

Definition Len (v : rValues) : nat := length (rv_Slice v).

(** [Less], on a heap and with a budget for [cmp]; the visited set it
    leaves is the one the next call starts from.  No boolean comes back
    when an index is out of range or [cmp] panics.  On a nil [Visited]
    (fewer than two values, where a sort never calls [Less]) the behaviour
    of [Record] is not known, and that case is left without an answer. *)
Definition Less (fuel : nat) (h : heap) (v : rValues) (i j : nat)
    : option (bool * rValues) :=
  match rv_Visited v, rv_Slice v !! i, rv_Slice v !! j with
  | Some vis, Some a, Some b =>
      match cmp fuel h vis a b with
      | (Ret r, vis') =>
          Some (r <? 0, {| rv_Visited := Some vis'; rv_Slice := rv_Slice v |})
      | _ => None
      end
  | _, _, _ => None
  end.

(** The size of what a value holds in place (array items, struct fields,
    the dynamic value of an interface), and the recursion budget that is
    enough for [cmp] on a given heap. *)
Fixpoint vsize (v : value) : nat :=
  match v with
  | VArray _ xs | VStruct _ xs => S (sum_list (vsize <$> xs))
  | VInterface _ _ e => S (vsize e)
  | _ => 1%nat
  end.

Definition heap_bound (h : heap) : nat :=
  max_list ((vsize ∘ snd) <$> map_to_list h).

Definition pairs (h : heap) : Visited := cprod (dom h) (dom h).

Definition unvisited (h : heap) (v : Visited) : nat := size (pairs h ∖ v).

Definition cmp_fuel (h : heap) (a : value) : nat :=
  S (size (pairs h) * S (heap_bound h) + vsize a).

(** The order the documentation of [SortableValues] gives for two maps:
    "shorter length is lesser, then sorted by address". *)
Definition map_order (pa : Z) (al : nat) (pb : Z) (bl : nat) : Z :=
  if (al <? bl)%nat then -1
  else if (bl <? al)%nat then 1
  else cmpRet (pa <? pb) (pb <? pa).

(** Items [0 .. n-1] of two slices compared pairwise and in order, every
    pair answering 0; the visited set goes from [v] to [v']. *)
Inductive equal_upto (fuel : nat) (h : heap) (da db : Z)
    : nat → Visited → Visited → Prop :=
| equal_upto_O v : equal_upto fuel h da db 0 v v
| equal_upto_S n v v' v'' x y :
    equal_upto fuel h da db n v v' →
    slice_index h da n = Some x →
    slice_index h db n = Some y →
    cmp fuel h v' x y = (Ret 0, v'') →
    equal_upto fuel h da db (S n) v v''.

(** Sample types and heaps: two cells that point at themselves, and the
    items of two slices. *)
Definition t_float := {| type_id := 1; type_name := "float64" |}.
Definition t_map := {| type_id := 2; type_name := "map[string]int" |}.
Definition t_slice := {| type_id := 3; type_name := "[]int" |}.
Definition t_int := {| type_id := 4; type_name := "int" |}.
Definition t_node := {| type_id := 5; type_name := "Node" |}.
Definition t_pnode := {| type_id := 6; type_name := "*Node" |}.
Definition t_string := {| type_id := 7; type_name := "string" |}.

Definition cyclic_heap : heap :=
  <[1 := VStruct t_node [VInt t_int I0 7; VPtr t_pnode 1]]>
  (<[2 := VStruct t_node [VInt t_int I0 7; VPtr t_pnode 2]]> ∅).

Definition slices_heap : heap :=
  <[10 := VInt t_int I0 7]> (<[20 := VInt t_int I0 7]>
  (<[21 := VInt t_int I0 8]> ∅)).

(** Two maps of one type, of lengths 1 and 2, and two slices of one type,
    of lengths 1 and 2 with the same first item, as handed to
    [SortableValues]. *)
Definition two_maps : list value := [VMap t_map 10 1; VMap t_map 20 2].
Definition two_slices : list value :=
  [VSlice t_slice 10 1; VSlice t_slice 20 2].

(** [type T []T], with [a := T{nil}; a[0] = a] and
    [b := T{nil, nil}; b[0] = b]: two slices of lengths 1 and 2 that hold
    themselves as first item.  The items of [a] are at 10, those of [b] at
    20 and 21; [b[1]] is nil. *)
Definition t_T := {| type_id := 8; type_name := "T" |}.

Definition looping_slices_heap : heap :=
  <[10 := VSlice t_T 10 1]> (<[20 := VSlice t_T 20 2]>
  (<[21 := VSlice t_T 0 0]> ∅)).

(** ** internal/ctxerr/error.go *)

Definition nl : string := String "010"%char "".
Definition tab : string := String "009"%char "".

Module ctxerr.

(** The colour escapes [color.Init] sets up. *)
Record Colors := {
  TitleOn : string; TitleOff : string;
  BadOnBold : string; BadOn : string; BadOff : string;
  OKOnBold : string; OKOn : string; OKOff : string }.

Section Error.
(** Types and helpers of packages that are not among the sources:
    [ctxerr.Context] with the rendering of its path, the values held in
    [Got] and [Expected] with [util.ToString], [util.IndentStringIn],
    [location.Location] with its methods, the zero values of these three
    types (the fields of the sentinels), and the colours. *)
Context {Ctx Iface Location : Type} `{!EqDecision Location}.
Variable PathString : Ctx → string.
Variable ToString : Iface → string.
Variable IndentStringIn : string → string → string.
Variable IsInitialized : Location → bool.
Variable BehindCmp : Location → bool.
Variable LocationString : Location → string.
Variable zeroContext : Ctx.
Variable zeroIface : Iface.
Variable zeroLocation : Location.
Variable color : Colors.

(** An [ErrorSummary] is known by the text its [AppendSummary] appends
    for a given prefix. *)
Definition ErrorSummary := string → string.

(** A [*Error].  The two package-level sentinels are told apart by
    pointer identity in the source, here by their constructor. *)
Inductive Error :=
| BooleanError
| ErrTooManyErrors
| MkError (Context : Ctx) (Message : string) (Got Expected : Iface)
    (Summary : option ErrorSummary) (Loc : Location)
    (Origin Next : option Error).

Definition Message (e : Error) : string :=
  match e with
  | BooleanError => ""
  | ErrTooManyErrors =>
      "Too many errors (use TESTDEEP_MAX_ERRORS=-1 to see all)"
  | MkError _ m _ _ _ _ _ _ => m
  end.

Definition Context_of (e : Error) : Ctx :=
  match e with MkError c _ _ _ _ _ _ _ => c | _ => zeroContext end.

Definition Got_of (e : Error) : Iface :=
  match e with MkError _ _ g _ _ _ _ _ => g | _ => zeroIface end.

Definition Expected_of (e : Error) : Iface :=
  match e with MkError _ _ _ x _ _ _ _ => x | _ => zeroIface end.

Definition Location_of (e : Error) : Location :=
  match e with
  | MkError _ _ _ _ _ l _ _ => l
  | _ => zeroLocation
  end.

Definition Summary_of (e : Error) : option ErrorSummary :=
  match e with MkError _ _ _ _ s _ _ _ => s | _ => None end.

Definition Origin_of (e : Error) : option Error :=
  match e with MkError _ _ _ _ _ _ o _ => o | _ => None end.

Definition Next_of (e : Error) : option Error :=
  match e with MkError _ _ _ _ _ _ _ n => n | _ => None end.

Definition GotString (e : Error) : string :=
  match e with
  | MkError _ _ got _ None _ _ _ => ToString got
  | _ => ""
  end.

Definition ExpectedString (e : Error) : string :=
  match e with
  | MkError _ _ _ expected None _ _ _ => ToString expected
  | _ => ""
  end.

(** [writeEolPrefix] as [Append] sets it up from [prefix]. *)
Definition writeEolPrefix (prefix buf : string) : string :=
  if decide (prefix ≠ "") then buf +:+ (nl +:+ prefix) else buf +:+ nl.

(** The title: [e.Message] with the path put at the first ["%%"], or the
    path, [": "] and the message. *)
Definition write_title (path msg buf : string) : string :=
  let buf := buf +:+ TitleOn color in
  let buf :=
    match String.index 0 "%%" msg with
    | Some pos =>
        let buf := buf +:+ String.substring 0 pos msg in
        let buf := buf +:+ path in
        buf +:+ String.substring (pos + 2) (String.length msg - (pos + 2)) msg
    | None =>
        let buf := buf +:+ path in
        let buf := buf +:+ ": " in
        buf +:+ msg
    end in
  buf +:+ TitleOff color.

Definition location_guard (loc : Location) (next : option Error) : bool :=
  IsInitialized loc && negb (BehindCmp loc) &&
  match next with
  | None => true
  | Some n => bool_decide (Location_of n ≠ loc)
  end.

Fixpoint Append (e : Error) (buf prefix : string) : string :=
  match e with
  | BooleanError => buf
  | ErrTooManyErrors =>
      let buf := if decide (prefix ≠ "") then buf +:+ prefix else buf in
      let buf := buf +:+ TitleOn color in
      let buf := buf +:+ Message ErrTooManyErrors in
      buf +:+ TitleOff color
  | MkError ctx msg got expected summary loc origin next =>
      let buf := if decide (prefix ≠ "") then buf +:+ prefix else buf in
      let buf := write_title (PathString ctx) msg buf in
      let buf :=
        match summary with
        | Some s =>
            let buf := buf +:+ nl in
            buf +:+ s (prefix +:+ tab)
        | None =>
            let buf := writeEolPrefix prefix buf in
            let buf := buf +:+ BadOnBold color in
            let buf := buf +:+ (tab +:+ "     got: ") in
            let buf := buf +:+ BadOn color in
            let buf := buf +:+ IndentStringIn (GotString e)
                                 (prefix +:+ tab +:+ "          ") in
            let buf := buf +:+ BadOff color in
            let buf := writeEolPrefix prefix buf in
            let buf := buf +:+ OKOnBold color in
            let buf := buf +:+ (tab +:+ "expected: ") in
            let buf := buf +:+ OKOn color in
            let buf := buf +:+ IndentStringIn (ExpectedString e)
                                 (prefix +:+ tab +:+ "          ") in
            buf +:+ OKOff color
        end in
      let buf :=
        match origin with
        | Some o =>
            let buf := writeEolPrefix prefix buf in
            let buf := buf +:+ ("Originates from following error:" +:+ nl) in
            Append o buf (prefix +:+ tab)
        | None => buf
        end in
      let buf :=
        if location_guard loc next then
          let buf := writeEolPrefix prefix buf in
          let buf := buf +:+ "[under TestDeep operator " in
          let buf := buf +:+ LocationString loc in
          buf +:+ "]"
        else buf in
      match next with
      | Some n =>
          let buf := buf +:+ nl in
          Append n buf prefix
      | None => buf
      end
  end.

(** [Error()]: the rendering into a fresh buffer with no prefix. *)
Definition Error_ (e : Error) : string := Append e "" "".

(** The five parts of a rendered node, each as the text it adds. *)
Definition message_part (path msg : string) : string :=
  TitleOn color +:+
  match String.index 0 "%%" msg with
  | Some pos =>
      String.substring 0 pos msg +:+ path +:+
      String.substring (pos + 2) (String.length msg - (pos + 2)) msg
  | None => path +:+ ": " +:+ msg
  end +:+ TitleOff color.

Definition eol (prefix : string) : string := nl +:+ prefix.

Definition values_part (got expected : Iface)
    (summary : option ErrorSummary) (prefix : string) : string :=
  match summary with
  | Some s => nl +:+ s (prefix +:+ tab)
  | None =>
      eol prefix +:+ BadOnBold color +:+ tab +:+ "     got: " +:+
      BadOn color +:+
      IndentStringIn (ToString got) (prefix +:+ tab +:+ "          ") +:+
      BadOff color +:+
      eol prefix +:+ OKOnBold color +:+ tab +:+ "expected: " +:+
      OKOn color +:+
      IndentStringIn (ToString expected) (prefix +:+ tab +:+ "          ") +:+
      OKOff color
  end.

Definition origin_part (origin : option Error) (prefix : string) : string :=
  match origin with
  | Some o =>
      eol prefix +:+ "Originates from following error:" +:+ nl +:+
      Append o "" (prefix +:+ tab)
  | None => ""
  end.

Definition location_line (loc : Location) (prefix : string) : string :=
  eol prefix +:+ "[under TestDeep operator " +:+ LocationString loc +:+ "]".

Definition location_part (loc : Location) (next : option Error)
    (prefix : string) : string :=
  if location_guard loc next then location_line loc prefix else "".

Definition next_part (next : option Error) (prefix : string) : string :=
  match next with
  | Some n => nl +:+ Append n "" prefix
  | None => ""
  end.

(** The order the claim gives, read for every node alike: message with
    its path, values or summary, origin, location, next sibling. *)
Definition rendered_in_order (e : Error) (prefix : string) : string :=
  prefix +:+ message_part (PathString (Context_of e)) (Message e) +:+
  values_part (Got_of e) (Expected_of e) (Summary_of e) prefix +:+
  origin_part (Origin_of e) prefix +:+
  location_part (Location_of e) (Next_of e) prefix +:+
  next_part (Next_of e) prefix.

End Error.

Arguments Error : clear implicits.
Arguments BooleanError {Ctx Iface Location}.
Arguments ErrTooManyErrors {Ctx Iface Location}.

End ctxerr.

(** The float64 values 1.0 and -1.0, and the values
    [[NaN, 1.0, -1.0]] handed to [SortableValues]. *)
Definition float_one : spec_float := S754_finite false 4503599627370496 (-52).
Definition float_minus_one : spec_float :=
  S754_finite true 4503599627370496 (-52).

Definition nan_one_minus_one : rValues :=
  SortableValues [VFloat t_float F64 S754_nan; VFloat t_float F64 float_one;
                  VFloat t_float F64 float_minus_one].

(** A plain setting to run [Append] in: no colours, paths and values that
    are their own text, locations that are a text and the [BehindCmp]
    flag, initialized when the text is not empty. *)
Module plain.
Definition colors : ctxerr.Colors :=
  {| ctxerr.TitleOn := ""; ctxerr.TitleOff := "";
     ctxerr.BadOnBold := ""; ctxerr.BadOn := ""; ctxerr.BadOff := "";
     ctxerr.OKOnBold := ""; ctxerr.OKOn := ""; ctxerr.OKOff := "" |}.

Definition location : Type := string * bool.

Definition IsInitialized (l : location) : bool :=
  negb (bool_decide (l.1 = "")).

Definition Error : Type := ctxerr.Error string string location.

Definition Append : Error → string → string → string :=
  ctxerr.Append (λ path, path) (λ x, x) (λ text indent, text)
    IsInitialized snd fst ("", false) colors.

Definition rendered_in_order : Error → string → string :=
  ctxerr.rendered_in_order (λ path, path) (λ x, x) (λ text indent, text)
    IsInitialized snd fst "" "" ("", false) colors.

Definition location_line : location → string → string :=
  ctxerr.location_line fst.

(** Two mismatches found under the same operator, and a third under
    another one. *)
Definition third : Error :=
  ctxerr.MkError "DATA[2]" "values differ" "3" "4" None
    ("Between at a.go:9", false) None None.
Definition second : Error :=
  ctxerr.MkError "DATA[1]" "values differ" "1" "2" None
    ("All at a.go:7", false) None (Some third).
Definition first : Error :=
  ctxerr.MkError "DATA[0]" "values differ" "0" "1" None
    ("All at a.go:7", false) None (Some second).
End plain.

(** ** The operators: Shallow, Tag, Delay *)

(** A Go string: the address of its bytes and its text.  A sub-string
    [s[i:j]] points into the same bytes. *)
Record gostring := { str_data : Z; str_text : string }.

Definition stringPointer (s : gostring) : Z := str_data s.

Definition str_slice (s : gostring) (i j : nat) : gostring :=
  {| str_data := str_data s + Z.of_nat i;
     str_text := String.substring i (j - i) (str_text s) |}.

(** [Value.String()]: the string itself for a string, a description of the
    value otherwise (never asked for here). *)
Definition value_String (v : value) : gostring :=
  match v with
  | VString _ d s => {| str_data := d; str_text := s |}
  | _ => {| str_data := 0; str_text := "<Value>" |}
  end.

(** [Kind.String()]. *)
Definition kind_String (k : Kind) : string :=
  match k with
  | KInvalid => "invalid" | KBool => "bool"
  | KInt => "int" | KInt8 => "int8" | KInt16 => "int16"
  | KInt32 => "int32" | KInt64 => "int64"
  | KUint => "uint" | KUint8 => "uint8" | KUint16 => "uint16"
  | KUint32 => "uint32" | KUint64 => "uint64" | KUintptr => "uintptr"
  | KFloat32 => "float32" | KFloat64 => "float64"
  | KComplex64 => "complex64" | KComplex128 => "complex128"
  | KArray => "array" | KChan => "chan" | KFunc => "func"
  | KInterface => "interface" | KMap => "map" | KPtr => "ptr"
  | KSlice => "slice" | KString => "string" | KStruct => "struct"
  | KUnsafePointer => "unsafe.Pointer"
  end.

(** A call either returns or panics. *)
Inductive go (A : Type) := Returns (x : A) | Panics (msg : string).
Arguments Returns {A} x.
Arguments Panics {A} msg.

Module td.

(** The [ctxerr.Error] literals the operators build. *)
Record mismatch := { Message : string; Got : string; Expected : string }.

(** The kinds [Shallow] accepts, as its usage message lists them. *)
Definition shallow_kind (k : Kind) : bool :=
  match k with
  | KChan | KFunc | KMap | KPtr | KSlice | KUnsafePointer | KString => true
  | _ => false
  end.

(** The identity a shallow comparison is about: the address of the bytes
    of a string, [Pointer()] of the other kinds. *)
Definition identity_pointer (v : value) : option Z :=
  match v with
  | VString _ d _ => Some d
  | _ => Pointer v
  end.

Section operators.
(** [ctxerr.Context] is not among the sources: its [BooleanError] field
    is read and its [CurOperator] field is set; [CollectError] is kept
    as the call it is. *)
Context {Ctx : Type}.
Variable BooleanError : Ctx → bool.

(** What [Match] returns: nil, the boolean sentinel, or
    [ctx.CollectError(&ctxerr.Error{...})]. *)
Inductive matched :=
| Nil
| RetBooleanError
| RetCollectError (ctx : Ctx) (e : mismatch).

(** The [TestDeep] interface. *)
Record TestDeep := {
  op_Match : Ctx → value → go matched;
  op_String : string;
  op_TypeBehind : option rtype;
  op_HandleInvalid : bool }.

(** *** Shallow *)

(** The embedded [Base] (where the operator was built) is left out, here
    and in the two other operators. *)
Record tdShallow := {
  expectedKind : Kind;
  expectedPointer : Z;
  expectedStr : gostring }.

Definition Shallow (expectedPtr : value) : go tdShallow :=
  let vptr := expectedPtr in
  let kind := kind_of vptr in
  match kind with
  | KChan | KFunc | KMap | KPtr | KSlice | KUnsafePointer =>
      match Pointer vptr with
      | Some p =>
          Returns {| expectedKind := kind; expectedPointer := p;
                     expectedStr := {| str_data := 0; str_text := "" |} |}
      | None => Panics "reflect: call of reflect.Value.Pointer"
      end
  | KString =>
      let str := value_String vptr in
      Returns {| expectedKind := kind;
                 expectedPointer := stringPointer str;
                 expectedStr := str |}
  | _ => Panics "usage: Shallow(CHANNEL|FUNC|MAP|PTR|SLICE|UNSAFE_PTR|STRING)"
  end.

Definition Shallow_Match (s : tdShallow) (ctx : Ctx) (got : value)
    : go matched :=
  if decide (kind_of got ≠ expectedKind s) then
    if BooleanError ctx then Returns RetBooleanError
    else Returns (RetCollectError ctx
           {| Message := "bad kind";
              Got := kind_String (kind_of got);
              Expected := kind_String (expectedKind s) |})
  else
    let ptr :=
      if decide (expectedKind s = KString)
      then Some (stringPointer (value_String got))
      else Pointer got in
    match ptr with
    | None => Panics "reflect: call of reflect.Value.Pointer"
    | Some ptr =>
        if decide (ptr ≠ expectedPointer s) then
          if BooleanError ctx then Returns RetBooleanError
          else Returns (RetCollectError ctx
                 {| Message := kind_String (expectedKind s) +:+
                               " pointer mismatch";
                    Got := HexString.of_Z ptr;
                    Expected := HexString.of_Z (expectedPointer s) |})
        else Returns Nil
    end.

Definition Shallow_String (s : tdShallow) : string :=
  "(" +:+ kind_String (expectedKind s) +:+ ") " +:+
  HexString.of_Z (expectedPointer s).

(** *** Tag *)

(** An [interface{}] argument and the [reflect.Value] made of it: a plain
    value ([Invalid] for untyped nil) or a [TestDeep] operator. *)
Inductive boxed := Plain (v : value) | Operator (ty : rtype) (op : TestDeep).

Definition boxed_IsValid (x : boxed) : bool :=
  match x with Plain v => IsValid v | Operator _ _ => true end.

Definition boxed_Type (x : boxed) : option rtype :=
  match x with Plain v => type_of v | Operator ty _ => Some ty end.

Record tdSmugglerBase := { expectedValue : boxed; isTestDeeper : bool }.

(** Modelled from the spec: [newSmugglerBase], which is not among the
    sources.  A tagged passthrough carries a wrapped value, literal or
    operator; the base keeps the operator and flags it, and leaves a
    literal to its caller, as [Tag] stores it itself when the flag is
    off. *)
Definition newSmugglerBase (val : boxed) : tdSmugglerBase :=
  match val with
  | Operator _ _ => {| expectedValue := val; isTestDeeper := true |}
  | Plain _ => {| expectedValue := Plain Invalid; isTestDeeper := false |}
  end.

Record tdTag := { tdSmugglerBase_ : tdSmugglerBase; tag : string }.

(** [util.CheckTag], [color.Bad], [util.ToString] and [deepValueEqual]
    are not among the sources. *)
Variable CheckTag : string → option string.
Variable Bad : string → list string → string.
Variable ToString : boxed → string.
Variable deepValueEqual : Ctx → value → boxed → go matched.

Definition Tag (tag : string) (expectedValue : boxed) : go tdTag :=
  match CheckTag tag with
  | Some err => Panics (Bad "Tag(): %s" [err])
  | None =>
      let base := newSmugglerBase expectedValue in
      let base :=
        if negb (isTestDeeper base)
        then {| expectedValue := expectedValue;
                isTestDeeper := isTestDeeper base |}
        else base in
      Returns {| tdSmugglerBase_ := base; tag := tag |}
  end.

Definition Tag_Match (t : tdTag) (ctx : Ctx) (got : value) : go matched :=
  deepValueEqual ctx got (expectedValue (tdSmugglerBase_ t)).

Definition Tag_HandleInvalid (t : tdTag) : bool := true.

Definition Tag_String (t : tdTag) : go string :=
  if isTestDeeper (tdSmugglerBase_ t) then
    match expectedValue (tdSmugglerBase_ t) with
    | Operator _ op => Returns (op_String op)
    | Plain _ => Panics "interface conversion"
    end
  else Returns (ToString (expectedValue (tdSmugglerBase_ t))).

Definition Tag_TypeBehind (t : tdTag) : go (option rtype) :=
  if isTestDeeper (tdSmugglerBase_ t) then
    match expectedValue (tdSmugglerBase_ t) with
    | Operator _ op => Returns (op_TypeBehind op)
    | Plain _ => Panics "interface conversion"
    end
  else if boxed_IsValid (expectedValue (tdSmugglerBase_ t))
  then Returns (boxed_Type (expectedValue (tdSmugglerBase_ t)))
  else Returns None.

(** *** Delay *)

(** [ctx.CurOperator = op]. *)
Variable with_CurOperator : Ctx → TestDeep → Ctx.

(** The delayed function is a closure and may answer differently each
    time it is run: it is given the number of runs before this one, and
    [runs] counts them.  [once] is the done flag of the [sync.Once]. *)
Record tdDelay := {
  operator : option TestDeep;
  once : bool;
  delayed : nat → TestDeep;
  runs : nat }.

Definition Delay (delayed : option (nat → TestDeep)) : go tdDelay :=
  match delayed with
  | None => Panics (Bad "Delay(DELAYED): DELAYED must be non-nil" [])
  | Some f =>
      Returns {| operator := None; once := false; delayed := f; runs := 0 |}
  end.

(** [d.once.Do(func() { d.operator = d.delayed() })].  [sync.Once] runs
    the function under its lock and every other caller waits for it, so
    the call is one atomic step. *)
Definition once_Do (d : tdDelay) : tdDelay :=
  if once d then d
  else {| operator := Some (delayed d (runs d)); once := true;
          delayed := delayed d; runs := S (runs d) |}.

Definition getOperator (d : tdDelay) : tdDelay * option TestDeep :=
  let d := once_Do d in
  (d, operator d).

Definition nil_call {A} : go A :=
  Panics "invalid memory address or nil pointer dereference".

Definition Delay_Match (d : tdDelay) (ctx : Ctx) (got : value)
    : tdDelay * go matched :=
  let '(d, op) := getOperator d in
  match op with
  | Some op =>
      let ctx := with_CurOperator ctx op in
      (d, op_Match op ctx got)
  | None => (d, nil_call)
  end.

Definition Delay_String (d : tdDelay) : tdDelay * go string :=
  let '(d, op) := getOperator d in
  match op with
  | Some op => (d, Returns (op_String op))
  | None => (d, nil_call)
  end.

Definition Delay_TypeBehind (d : tdDelay) : tdDelay * go (option rtype) :=
  let '(d, op) := getOperator d in
  match op with
  | Some op => (d, Returns (op_TypeBehind op))
  | None => (d, nil_call)
  end.

Definition Delay_HandleInvalid (d : tdDelay) : tdDelay * go bool :=
  let '(d, op) := getOperator d in
  match op with
  | Some op => (d, Returns (op_HandleInvalid op))
  | None => (d, nil_call)
  end.

(** A call of one of the four methods, and what it answers. *)
Inductive call :=
| CallMatch (ctx : Ctx) (got : value)
| CallString
| CallTypeBehind
| CallHandleInvalid.

Inductive reply :=
| ReplyMatch (r : go matched)
| ReplyString (r : go string)
| ReplyTypeBehind (r : go (option rtype))
| ReplyHandleInvalid (r : go bool).

Definition invoke (d : tdDelay) (c : call) : tdDelay * reply :=
  match c with
  | CallMatch ctx got =>
      let '(d, r) := Delay_Match d ctx got in (d, ReplyMatch r)
  | CallString => let '(d, r) := Delay_String d in (d, ReplyString r)
  | CallTypeBehind =>
      let '(d, r) := Delay_TypeBehind d in (d, ReplyTypeBehind r)
  | CallHandleInvalid =>
      let '(d, r) := Delay_HandleInvalid d in (d, ReplyHandleInvalid r)
  end.

(** The same method called on an operator itself. *)
Definition forward (op : option TestDeep) (c : call) : reply :=
  match op, c with
  | Some op, CallMatch ctx got =>
      ReplyMatch (op_Match op (with_CurOperator ctx op) got)
  | Some op, CallString => ReplyString (Returns (op_String op))
  | Some op, CallTypeBehind => ReplyTypeBehind (Returns (op_TypeBehind op))
  | Some op, CallHandleInvalid =>
      ReplyHandleInvalid (Returns (op_HandleInvalid op))
  | None, CallMatch _ _ => ReplyMatch nil_call
  | None, CallString => ReplyString nil_call
  | None, CallTypeBehind => ReplyTypeBehind nil_call
  | None, CallHandleInvalid => ReplyHandleInvalid nil_call
  end.

(** Repeated calls, one after the other. *)
Fixpoint invoke_all (d : tdDelay) (cs : list call) : tdDelay * list reply :=
  match cs with
  | [] => (d, [])
  | c :: cs =>
      let '(d, r) := invoke d c in
      let '(d, rs) := invoke_all d cs in
      (d, r :: rs)
  end.

(** Concurrent calls.  A goroutine running one method goes through three
    steps: [once.Do], the read of [d.operator], the call of the method
    of what it read.  A schedule names the goroutine that moves next. *)
Inductive goroutine :=
| Calling (c : call)
| Loading (c : call)
| Forwarding (c : call) (op : option TestDeep)
| Finished (r : reply).

Definition step (d : tdDelay) (g : goroutine) : tdDelay * goroutine :=
  match g with
  | Calling c => (once_Do d, Loading c)
  | Loading c => (d, Forwarding c (operator d))
  | Forwarding c op => (d, Finished (forward op c))
  | Finished r => (d, Finished r)
  end.

Definition sched_step (st : tdDelay * list goroutine) (i : nat)
    : tdDelay * list goroutine :=
  match st.2 !! i with
  | Some g => let '(d, g) := step st.1 g in (d, <[i := g]> st.2)
  | None => st
  end.

Definition run (sched : list nat) (st : tdDelay * list goroutine)
    : tdDelay * list goroutine :=
  foldl sched_step st sched.

(** A wrapper before its first use, and once its [once] is done. *)
Definition built (f : nat → TestDeep) (d : tdDelay) : Prop :=
  once d = true ∧ runs d = 1%nat ∧ operator d = Some (f 0%nat) ∧
  delayed d = f.

Definition fresh (f : nat → TestDeep) (d : tdDelay) : Prop :=
  once d = false ∧ runs d = 0%nat ∧ operator d = None ∧
  delayed d = f.

(** The invariant of the interleaved runs. *)
Definition goroutine_ok (f : nat → TestDeep) (d : tdDelay)
    (c : call) (g : goroutine) : Prop :=
  match g with
  | Calling c' => c' = c
  | Loading c' => c' = c ∧ built f d
  | Forwarding c' op => c' = c ∧ op = Some (f 0%nat) ∧ built f d
  | Finished r => r = forward (Some (f 0%nat)) c ∧ built f d
  end.

Definition inv (f : nat → TestDeep) (cs : list call)
    (st : tdDelay * list goroutine) : Prop :=
  (fresh f st.1 ∨ built f st.1) ∧
  Forall2 (goroutine_ok f st.1) cs st.2.

(** Every goroutine moved to its end, in turn. *)
Definition run_to_end (n : nat) : list nat :=
  i ← seq 0 n; [i; i; i].
End operators.
End td.

(** A plain setting for the operators: the context is its [BooleanError]
    flag, every tag is accepted but the empty one, and the delayed function
    builds a differently named operator each time it is run. *)
Module sample.
Definition named (name : string) : @td.TestDeep bool :=
  {| td.op_Match := λ _ _, Returns td.Nil;
     td.op_String := name;
     td.op_TypeBehind := None;
     td.op_HandleInvalid := false |}.

Definition build (n : nat) : @td.TestDeep bool :=
  named (if decide (n = 0%nat) then "first" else "later").

Definition CheckTag (tag : string) : option string :=
  if decide (tag = "") then Some "tag must not be empty" else None.

Definition Bad (format : string) (args : list string) : string :=
  format +:+ foldr String.append "" args.

Definition deepValueEqual (ctx : bool) (got : value)
    (expected : @td.boxed bool)
    : go (@td.matched bool) :=
  Returns td.Nil.

Definition with_CurOperator (ctx : bool) (op : @td.TestDeep bool) : bool :=
  ctx.

Definition wrapper : @td.tdDelay bool :=
  {| td.operator := None; td.once := false; td.delayed := build;
     td.runs := 0 |}.

Definition foobar : value := VString t_string 100 "foobar yes!".
End sample.

(** * Facts *)

(** ** The comparator answers on every heap *)

Lemma vsize_lookup (xs : list value) i x :
  xs !! i = Some x → (vsize x ≤ sum_list (vsize <$> xs))%nat.
Proof.
  revert i. induction xs as [|y xs IH]; intros [|i] Hi; simplify_eq/=; [lia|].
  apply IH in Hi. lia.
Qed.

Lemma heap_bound_lookup (h : heap) p x :
  h !! p = Some x → (vsize x ≤ heap_bound h)%nat.
Proof.
  intros Hp. apply max_list_elem_of_le.
  apply list_elem_of_fmap. exists (p, x). split; [done|].
  by apply elem_of_map_to_list.
Qed.

Lemma unvisited_mono (h : heap) (v w : Visited) :
  v ⊆ w → (unvisited h w ≤ unvisited h v)%nat.
Proof. intros. apply subseteq_size. set_solver. Qed.

Lemma unvisited_le (h : heap) (v : Visited) :
  (unvisited h v ≤ size (pairs h))%nat.
Proof. apply subseteq_size. set_solver. Qed.

Lemma unvisited_fresh (h : heap) (v w : Visited) p q :
  is_Some (h !! p) → is_Some (h !! q) → (p, q) ∉ v → (p, q) ∈ w → v ⊆ w →
  (unvisited h w < unvisited h v)%nat.
Proof.
  intros Hp%elem_of_dom Hq%elem_of_dom Hv Hw Hvw. apply subset_size.
  assert ((p, q) ∈ pairs h) as Hin by (apply elem_of_gset_cprod; done).
  split; [set_solver|]. intros Hsub. specialize (Hsub (p, q)). set_solver.
Qed.

Lemma Record_mono v a b : v ⊆ (visited.Record v a b).2.
Proof.
  unfold visited.Record.
  destruct (visited.identity a), (visited.identity b); simpl; try done.
  case_decide; simpl; set_solver.
Qed.

Lemma Record_fresh v a b v1 ia ib :
  visited.Record v a b = (false, v1) →
  visited.identity a = Some ia → visited.identity b = Some ib →
  ((ia, ib) ∉ v) ∧ ((ia, ib) ∈ v1).
Proof.
  unfold visited.Record. intros HR Ha Hb. rewrite Ha, Hb in HR.
  case_decide; simplify_eq. set_solver.
Qed.

Lemma on_both_mono xa xb rec :
  (∀ w x y, w ⊆ (rec w x y).2) → ∀ w, w ⊆ (on_both xa xb rec w).2.
Proof. intros Hr w. unfold on_both. destruct xa, xb; simpl; done. Qed.

Lemma for_range_mono (n : nat) (body : nat → Visited → outcome * Visited) :
  (∀ j w, w ⊆ (body j w).2) → ∀ i v, v ⊆ (for_range n i body v).2.
Proof.
  intros Hb. induction n as [|n IH]; intros i v; simpl; [done|].
  pose proof (Hb i v) as H1.
  destruct (body i v) as [[r| |] v']; simpl in *; try done.
  destruct r; simpl; try done. etrans; [exact H1|apply IH].
Qed.

Lemma cmp_mono fuel h : ∀ v a b, v ⊆ (cmp fuel h v a b).2.
Proof.
  induction fuel as [|fuel IH]; intros v a b; simpl; [done|].
  destruct (type_of a) as [ta|], (type_of b) as [tb|]; simpl; try done.
  case_decide; simpl; [done|].
  pose proof (Record_mono v a b) as HR.
  destruct (visited.Record v a b) as [seen v1]; simpl in HR.
  destruct seen; simpl; [done|].
  destruct a, b; simpl; try done; repeat case_decide; simpl; try done.
  - etrans; [exact HR|]. apply for_range_mono. intros; by apply on_both_mono.
  - etrans; [exact HR|].
    match goal with |- context [for_range ?n ?i ?f ?w] =>
      pose proof (for_range_mono n f (λ j, on_both_mono _ _ _ (IH)) i w) as HF;
      destruct (for_range n i f w) as [[r| |] v2] end; simpl in *; try done.
    by destruct r.
  - repeat (case_match; simpl; try done). etrans; [exact HR|apply IH].
  - etrans; [exact HR|]. apply for_range_mono. intros; by apply on_both_mono.
  - etrans; [exact HR|]. by apply on_both_mono.
Qed.

(** The loop answers as soon as every iteration does. *)
Lemma for_range_answers (n : nat) (body : nat → Visited → outcome * Visited)
    (v0 : Visited) :
  (∀ j w, w ⊆ (body j w).2) →
  (∀ j w, v0 ⊆ w → (body j w).1 ≠ OutOfFuel) →
  ∀ i v, v0 ⊆ v → (for_range n i body v).1 ≠ OutOfFuel.
Proof.
  intros Hm Hb. induction n as [|n IH]; intros i v Hv; simpl; [done|].
  pose proof (Hb i v Hv) as H1. pose proof (Hm i v) as H2.
  destruct (body i v) as [[r| |] v']; simpl in *; try done.
  destruct r; simpl; try done. apply IH. by etrans.
Qed.

Lemma cmp_answers h fuel : ∀ v a b,
  (unvisited h v * S (heap_bound h) + vsize a < fuel)%nat →
  (cmp fuel h v a b).1 ≠ OutOfFuel.
Proof.
  induction fuel as [|fuel IH]; intros v a b Hlt; [lia|]. simpl.
  destruct (type_of a) as [ta|], (type_of b) as [tb|]; simpl; try done.
  case_decide; simpl; [done|].
  pose proof (Record_mono v a b) as HR.
  pose proof (λ ia ib, Record_fresh v a b (visited.Record v a b).2 ia ib) as HF.
  destruct (visited.Record v a b) as [seen v1]; simpl in HR, HF.
  destruct seen; simpl; [done|]. specialize (λ ia ib, HF ia ib eq_refl).
  assert (∀ xs ys : list value, (sum_list (vsize <$> xs) < vsize a)%nat →
     (for_range (length xs) 0
        (λ i w, on_both (xs !! i) (ys !! i) (cmp fuel h) w) v1).1 ≠ OutOfFuel)
    as Hitems.
  { intros xs ys Hsz. apply for_range_answers with (v0 := v1); [| |done].
    - intros; apply on_both_mono, cmp_mono.
    - intros j w Hw. unfold on_both.
      destruct (xs !! j) as [x|] eqn:Hx, (ys !! j) as [y|]; simpl; try done.
      apply IH. apply vsize_lookup in Hx.
      pose proof (unvisited_mono h v w ltac:(by etrans)). nia. }
  assert (∀ pa pb xa xb w, (pa, pb) ∉ v → (pa, pb) ∈ v1 → v1 ⊆ w →
     is_Some (h !! pa) → is_Some (h !! pb) →
     (∀ x, xa = Some x → ∃ q, h !! q = Some x) →
     (on_both xa xb (cmp fuel h) w).1 ≠ OutOfFuel) as Hheap.
  { intros pa pb xa xb w Hn Hi Hw Ha Hb Hx. unfold on_both.
    destruct xa as [x|], xb as [y|]; simpl; try done.
    destruct (Hx x eq_refl) as [q Hq%heap_bound_lookup].
    apply IH.
    pose proof (unvisited_fresh h v w pa pb Ha Hb Hn ltac:(set_solver)
                  ltac:(by etrans)).
    destruct a; simpl in Hlt; nia. }
  destruct a, b; simpl; try done; repeat case_decide; simpl; try done.
  - apply Hitems. simpl. lia.
  - destruct (HF data data0 eq_refl eq_refl) as [Hn Hi].
    match goal with |- context [for_range ?n ?i ?f ?w] =>
      assert ((for_range n i f w).1 ≠ OutOfFuel) as Hloop;
      [|destruct (for_range n i f w) as [[[]| |] v2]; simpl in *; done] end.
    destruct (if (len0 <? len)%nat then len0 else len) as [|n]; [done|].
    destruct (h !! data) as [x|] eqn:Hx; cycle 1.
    { simpl. unfold slice_index at 1. simpl. rewrite Z.add_0_r, Hx. done. }
    destruct (h !! data0) as [y|] eqn:Hy; cycle 1.
    { simpl. unfold slice_index at 1 2. simpl.
      rewrite !Z.add_0_r, Hx, Hy. done. }
    apply for_range_answers with (v0 := v1); [| |done].
    + intros; apply on_both_mono, cmp_mono.
    + intros j w Hw. apply (Hheap data data0); eauto.
  - repeat (case_match; simpl; try done). apply IH. simpl in Hlt.
    pose proof (unvisited_mono h v v1 HR). nia.
  - apply Hitems. simpl. lia.
  - destruct (HF p p0 eq_refl eq_refl) as [Hn Hi].
    destruct (h !! p) as [x|] eqn:Hx; [|done].
    destruct (h !! p0) as [y|] eqn:Hy; [|done].
    apply (Hheap p p0 (Some x) (Some y) v1); try done; eauto.
    intros ? [= <-]; eauto.
Qed.

Lemma cmp_fuel_enough h a b k v :
  (cmp (cmp_fuel h a + k) h v a b).1 ≠ OutOfFuel.
Proof.
  apply cmp_answers. unfold cmp_fuel. pose proof (unvisited_le h v). nia.
Qed.


Lemma cmp_unfold_same fuel h v a b t :
  type_of a = Some t → type_of b = Some t →
  (visited.Record v a b).1 = true → cmp (S fuel) h v a b = (Ret 0, v).
Proof.
  intros Ha Hb HR. simpl. rewrite Ha, Hb. case_decide; [done|].
  unfold visited.Record in *.
  destruct (visited.identity a), (visited.identity b); simpl in *; try done.
  case_decide; simpl in *; done.
Qed.

Lemma cmp_records fuel h v a b t ia ib :
  type_of a = Some t → type_of b = Some t →
  visited.identity a = Some ia → visited.identity b = Some ib →
  (ia, ib) ∈ (cmp (S fuel) h v a b).2.
Proof.
  intros Ha Hb Hia Hib.
  destruct (decide ((ia, ib) ∈ v)) as [Hin|Hin].
  { by apply (cmp_mono (S fuel) h v a b). }
  simpl. rewrite Ha, Hb. case_decide; [done|].
  assert (visited.Record v a b = (false, {[(ia, ib)]} ∪ v)) as HR.
  { unfold visited.Record. rewrite Hia, Hib. by rewrite decide_False. }
  rewrite HR. simpl.
  assert ((ia, ib) ∈ ({[(ia, ib)]} ∪ v : Visited)) as Hin' by set_solver.
  revert Hin'. generalize ({[(ia, ib)]} ∪ v : Visited). intros v1 Hin'.
  destruct a, b; simpl in *; simplify_eq; repeat case_decide; simpl; try done.
  - match goal with |- context [for_range ?n ?i ?f ?w] =>
      pose proof (for_range_mono n f
                    (λ j, on_both_mono _ _ _ (cmp_mono fuel h)) i w) as HF;
      destruct (for_range n i f w) as [[[]| |] v2] end; simpl in *; set_solver.
  - repeat (case_match; simpl; try done).
    by apply (cmp_mono fuel h v1).
  - by apply (on_both_mono _ _ _ (cmp_mono fuel h)).
Qed.

(** Claim C8.  [cmp] terminates on every input, cyclic values included:
    on any heap [h], [cmp_fuel h a] levels of recursion are enough for it
    to answer (a return or a panic), whatever the visited set and whatever
    budget is added.  A pair of valid values of one type that [Record]
    reports as already visited compares as 0 and leaves the visited set as
    it is; and after any comparison of two values that have an identity,
    their pair is in the visited set.  [Record] is modelled from the
    spec. *)
Theorem cmp_terminates :
  (∀ h a b k v, (cmp (cmp_fuel h a + k) h v a b).1 ≠ OutOfFuel) ∧
  (∀ fuel h v a b t, type_of a = Some t → type_of b = Some t →
     (visited.Record v a b).1 = true → cmp (S fuel) h v a b = (Ret 0, v)) ∧
  (∀ fuel h v a b t ia ib, type_of a = Some t → type_of b = Some t →
     visited.identity a = Some ia → visited.identity b = Some ib →
     (ia, ib) ∈ (cmp (S fuel) h v a b).2).
Proof.
  split; [apply cmp_fuel_enough|].
  split; [apply cmp_unfold_same|apply cmp_records].
Qed.

Lemma cmp_terminates_witness :
  (cmp (cmp_fuel cyclic_heap (VPtr t_pnode 1) + 0) cyclic_heap
     visited.NewVisited (VPtr t_pnode 1) (VPtr t_pnode 2)).1 ≠ OutOfFuel ∧
  cmp 1 cyclic_heap {[ (1, 2) ]} (VPtr t_pnode 1) (VPtr t_pnode 2)
    = (Ret 0, {[ (1, 2) ]}) ∧
  (1, 2) ∈ (cmp 1 cyclic_heap visited.NewVisited
              (VPtr t_pnode 1) (VPtr t_pnode 2)).2.
Proof.
  destruct cmp_terminates as (Hterm & Hseen & Hrec).
  split; [|split].
  - apply Hterm.
  - apply (Hseen 0%nat cyclic_heap _ _ _ t_pnode); vm_compute; reflexivity.
  - apply (Hrec 0%nat cyclic_heap _ _ _ t_pnode 1 2); reflexivity.
Defined.


(** ** NaN *)

Lemma cmpFloat_NaN_l b : cmpFloat S754_nan b = -1.
Proof. reflexivity. Qed.

Lemma cmpFloat_NaN_r a : IsNaN a = false → cmpFloat a S754_nan = 1.
Proof. intros Ha. unfold cmpFloat. by rewrite Ha. Qed.

Lemma SFcompare_antisym a b :
  SFcompare b a = CompOpp <$> SFcompare a b.
Proof.
  destruct a as [sa|sa| |sa ma ea], b as [sb|sb| |sb mb eb]; simpl; try done;
    try (by destruct sa); try (by destruct sb); try (by destruct sa, sb).
  f_equal. rewrite (Z.compare_antisym ea eb).
  pose proof (Pos.compare_cont_antisym ma mb Eq) as Hm. simpl in Hm.
  destruct sa, sb; simpl; try done;
    destruct (ea ?= eb) eqn:E; simpl; try done; rewrite <- Hm; try done;
    by rewrite CompOpp_involutive.
Qed.

Lemma cmpFloat_antisym a b :
  IsNaN a = false → IsNaN b = false → cmpFloat b a = - cmpFloat a b.
Proof.
  intros Ha Hb. unfold cmpFloat, SFltb. rewrite Ha, Hb.
  rewrite (SFcompare_antisym a b).
  destruct (SFcompare a b) as [[]|]; done.
Qed.

Lemma cmpFloat_refl a : IsNaN a = false → cmpFloat a a = 0.
Proof.
  intros Ha. pose proof (cmpFloat_antisym a a Ha Ha). lia.
Qed.

(** NaN is below 1.0 and -1.0, which are not below it, and -1.0 is below
    1.0: sorted, [[NaN, 1.0, -1.0]] starts with NaN. *)
Example NaN_sorts_first :
  fst <$> Less 1 ∅ nan_one_minus_one 0 1 = Some true ∧
  fst <$> Less 1 ∅ nan_one_minus_one 0 2 = Some true ∧
  fst <$> Less 1 ∅ nan_one_minus_one 1 0 = Some false ∧
  fst <$> Less 1 ∅ nan_one_minus_one 2 0 = Some false ∧
  fst <$> Less 1 ∅ nan_one_minus_one 2 1 = Some true ∧
  fst <$> Less 1 ∅ nan_one_minus_one 1 2 = Some false.
Proof. vm_compute. done. Qed.

(** But NaN is below itself. *)
Example NaN_below_itself :
  fst <$> Less 1 ∅ nan_one_minus_one 0 0 = Some true.
Proof. reflexivity. Qed.

(** Claim C1, at the input where the code departs from it.  Comparing a
    NaN with itself (the same float value on both sides) returns -1, not 0:
    [cmpFloat] answers -1 as soon as its first operand is NaN.  So
    [cmp(a, a) = 0] and [cmp(a, b) = -cmp(b, a)] both fail at [a = b = NaN],
    and [Less] holds of a NaN and itself. *)
Theorem cmp_NaN_NaN fuel h v t sz :
  cmp (S fuel) h v (VFloat t sz S754_nan) (VFloat t sz S754_nan)
  = (Ret (-1), v).
Proof. simpl. case_decide; done. Qed.

(** ** Maps *)

Lemma cmp_map fuel h v t pa al pb bl :
  (pa, pb) ∉ v →
  cmp (S fuel) h v (VMap t pa al) (VMap t pb bl)
  = (Ret (map_order pa al pb bl), {[ (pa, pb) ]} ∪ v).
Proof.
  intros Hn. simpl. case_decide; [done|]. unfold visited.Record. simpl.
  rewrite decide_False by done. unfold map_order, cmpRet.
  destruct (al <? bl)%nat, (bl <? al)%nat; simpl; done.
Qed.

(** A pair of maps that an earlier comparison has recorded answers 0. *)
Lemma cmp_map_recorded fuel h v t pa al pb bl :
  (pa, pb) ∈ v →
  cmp (S fuel) h v (VMap t pa al) (VMap t pb bl) = (Ret 0, v).
Proof.
  intros Hin. apply (cmp_unfold_same _ _ _ _ _ t); try done.
  unfold visited.Record. simpl. by rewrite decide_True.
Qed.

(** Claim C4, at the input where the code departs from it.  Started on a
    fresh visited set, [cmp] orders two maps of one type as the claim and
    the documentation of [SortableValues] say ("shorter length is lesser,
    then sorted by address").  But [SortableValues] makes one visited set
    for the whole sort and [Less] hands it to every [cmp]: the first
    [Less(0, 1)] on two maps of lengths 1 and 2 records the pair and answers
    true, and the second [Less(0, 1)] on the same [SortableValues] answers
    false, because [cmp] now returns 0 from the guard against cyclic
    references, although no reference is cyclic and the shorter map should
    still come first (-1). *)
Theorem Less_maps_twice :
  (∀ fuel h t pa al pb bl,
     cmp (S fuel) h visited.NewVisited (VMap t pa al) (VMap t pb bl)
     = (Ret (map_order pa al pb bl), {[ (pa, pb) ]} ∪ visited.NewVisited)) ∧
  map_order 10 1 20 2 = -1 ∧
  fst <$> Less 1 ∅ (SortableValues two_maps) 0 1 = Some true ∧
  fst <$> (Less 1 ∅ (SortableValues two_maps) 0 1 ≫= λ r, Less 1 ∅ r.2 0 1)
    = Some false ∧
  (Less 1 ∅ (SortableValues two_maps) 0 1
     ≫= λ r, rv_Visited r.2
     ≫= λ v1, Some (cmp 1 ∅ v1 (VMap t_map 10 1) (VMap t_map 20 2)).1)
    = Some (Ret 0).
Proof.
  split.
  - intros fuel h t pa al pb bl. apply cmp_map. set_solver.
  - vm_compute. done.
Qed.

(** ** Slices *)

Lemma for_range_skip (body : nat → Visited → outcome * Visited)
    (fuel : nat) (h : heap) (da db : Z) (n : nat) (v v' : Visited) :
  (∀ i w, body i w = on_both (slice_index h da i) (slice_index h db i)
                       (cmp fuel h) w) →
  equal_upto fuel h da db n v v' →
  ∀ m, for_range (n + m) 0 body v = for_range m n body v'.
Proof.
  intros Hbody Hup. induction Hup as [v|n v v' v'' x y Hup IH Hx Hy Hc];
    intros m; [done|].
  replace (S n + m)%nat with (n + S m)%nat by lia. rewrite IH. simpl.
  rewrite Hbody, Hx, Hy. simpl. by rewrite Hc.
Qed.

Lemma maxl_min (al bl : nat) :
  (if (bl <? al)%nat then bl else al) = (al `min` bl)%nat.
Proof. destruct (Nat.ltb_spec bl al); lia. Qed.

Lemma cmp_slice_unfold fuel h v t da al db bl :
  (da, db) ∉ v →
  cmp (S fuel) h v (VSlice t da al) (VSlice t db bl) =
  match for_range (al `min` bl) 0
          (λ i w, on_both (slice_index h da i) (slice_index h db i)
                    (cmp fuel h) w) ({[ (da, db) ]} ∪ v) with
  | (Ret 0, v') => (Ret (cmpRet (al <? bl)%nat (bl <? al)%nat), v')
  | r => r
  end.
Proof.
  intros Hn. simpl. case_decide; [done|]. unfold visited.Record. simpl.
  rewrite decide_False by done. by rewrite maxl_min.
Qed.

(** The visited set only grows while the items are compared. *)
Lemma equal_upto_mono (fuel : nat) (h : heap) (da db : Z) (n : nat)
    (v v' : Visited) :
  equal_upto fuel h da db n v v' → v ⊆ v'.
Proof.
  induction 1 as [v|n v v' v'' x y Hup IH Hx Hy Hc]; [done|].
  pose proof (cmp_mono fuel h v' x y) as Hm. rewrite Hc in Hm. simpl in Hm.
  set_solver.
Qed.

(** Claim C7, amended.  For two slices of the same type met for the first
    time (their pair of identities is not in the visited set), [cmp]
    records the pair and compares the items pairwise and in order up to the
    length of the shorter slice: if every compared pair answers 0 the
    shorter slice sorts first (0 at equal lengths), and the first pair that
    answers something else gives the result.  While that comparison goes on,
    that is under the visited set [v'] reached after any number [i] of
    items and under every set [w] grown from it deeper in the comparison of
    an item, the same pair of slices met again (a cyclic reference) answers
    0, whatever the items and lengths. *)
Theorem cmp_slice_elementwise fuel h v t da al db bl :
  (da, db) ∉ v →
  (∀ v', equal_upto fuel h da db (al `min` bl) ({[ (da, db) ]} ∪ v) v' →
     cmp (S fuel) h v (VSlice t da al) (VSlice t db bl)
     = (Ret (cmpRet (al <? bl)%nat (bl <? al)%nat), v')) ∧
  (∀ i v' x y r v'', (i < al `min` bl)%nat →
     equal_upto fuel h da db i ({[ (da, db) ]} ∪ v) v' →
     slice_index h da i = Some x → slice_index h db i = Some y →
     cmp fuel h v' x y = (Ret r, v'') → r ≠ 0 →
     cmp (S fuel) h v (VSlice t da al) (VSlice t db bl) = (Ret r, v'')) ∧
  (∀ (i k : nat) (v' w : Visited), (i < al `min` bl)%nat →
     equal_upto fuel h da db i ({[ (da, db) ]} ∪ v) v' → v' ⊆ w →
     cmp (S k) h w (VSlice t da al) (VSlice t db bl) = (Ret 0, w)).
Proof.
  intros Hn. split; [|split].
  - intros v' Hup. rewrite cmp_slice_unfold by done.
    pose proof (for_range_skip _ fuel h da db _ _ _ (λ i w, eq_refl) Hup 0%nat)
      as Hs.
    rewrite Nat.add_0_r in Hs. rewrite Hs. done.
  - intros i v' x y r v'' Hi Hup Hx Hy Hc Hr.
    rewrite cmp_slice_unfold by done.
    pose proof (for_range_skip _ fuel h da db _ _ _ (λ i w, eq_refl) Hup
                  (al `min` bl - i)%nat) as Hs.
    replace (i + (al `min` bl - i))%nat with (al `min` bl)%nat in Hs by lia.
    rewrite Hs.
    destruct (al `min` bl - i)%nat as [|m] eqn:Em; [lia|]. simpl.
    rewrite Hx, Hy. simpl. rewrite Hc. by destruct r.
  - intros i k v' w _ Hup Hsub.
    pose proof (equal_upto_mono _ _ _ _ _ _ _ Hup) as Hm.
    assert ((da, db) ∈ w) as Hin by set_solver.
    apply (cmp_unfold_same _ _ _ _ _ t); try done.
    unfold visited.Record. simpl. by rewrite decide_True.
Qed.

Lemma cmp_slice_elementwise_witness :
  cmp 2 slices_heap visited.NewVisited
    (VSlice t_slice 10 1) (VSlice t_slice 20 2)
    = (Ret (-1), {[ (10, 20) ]} ∪ visited.NewVisited) ∧
  cmp 2 slices_heap visited.NewVisited
    (VSlice t_slice 20 2) (VSlice t_slice 21 1)
    = (Ret (-1), {[ (20, 21) ]} ∪ visited.NewVisited) ∧
  cmp 1 looping_slices_heap ({[ (10, 20) ]} ∪ visited.NewVisited)
    (VSlice t_T 10 1) (VSlice t_T 20 2)
    = (Ret 0, {[ (10, 20) ]} ∪ visited.NewVisited).
Proof.
  split; [|split].
  - apply (cmp_slice_elementwise 1 slices_heap visited.NewVisited t_slice
             10 1 20 2).
    + vm_compute. intros [=].
    + eapply equal_upto_S with (x := VInt t_int I0 7) (y := VInt t_int I0 7);
        [apply equal_upto_O|reflexivity|reflexivity|reflexivity].
  - apply (cmp_slice_elementwise 1 slices_heap visited.NewVisited t_slice
             20 2 21 1)
      with (i := 0%nat) (x := VInt t_int I0 7) (y := VInt t_int I0 8)
           (v' := {[ (20, 21) ]} ∪ visited.NewVisited).
    + vm_compute. intros [=].
    + vm_compute. lia.
    + apply equal_upto_O.
    + reflexivity.
    + reflexivity.
    + reflexivity.
    + lia.
  - apply (cmp_slice_elementwise 1 looping_slices_heap visited.NewVisited
             t_T 10 1 20 2)
      with (i := 0%nat) (v' := {[ (10, 20) ]} ∪ visited.NewVisited).
    + vm_compute. intros [=].
    + vm_compute. lia.
    + apply equal_upto_O.
    + reflexivity.
Defined.

(** Where the claim as it stands fails: [a] and [b] hold themselves as
    first item.  The one comparison of [a] with [b], from a fresh visited
    set, records the pair and compares the first items, which are [a] and
    [b] again; that inner comparison answers 0 from the guard, although [a]
    is the shorter of the two and the claim puts the shorter first.  (The
    outer comparison then answers -1.) *)
Lemma looping_slices_counterexample :
  let a := VSlice t_T 10 1 in
  let b := VSlice t_T 20 2 in
  let h := looping_slices_heap in
  let v0 : Visited := {[ (10, 20) ]} ∪ visited.NewVisited in
  slice_index h 10 0 = Some a ∧
  slice_index h 20 0 = Some b ∧
  cmp 2 h visited.NewVisited a b
    = match cmp 1 h v0 a b with
      | (Ret 0, v') => (Ret (cmpRet (1 <? 2)%nat (2 <? 1)%nat), v')
      | r => r
      end ∧
  cmp 1 h v0 a b = (Ret 0, v0) ∧
  cmpRet (1 <? 2)%nat (2 <? 1)%nat = -1 ∧
  cmp 2 h visited.NewVisited a b = (Ret (-1), v0).
Proof. vm_compute. done. Qed.

(** The visited set shared by the [Less] calls of one sort changes the
    answer for slices as it does for maps ([Less_maps_twice]): asked twice
    about the same two slices, with no cyclic reference anywhere, [Less]
    answers true and then false.  The documentation of [SortableValues]
    ("slice: comparison is spread to each item, then shorter length is
    lesser") gives true both times. *)
Example Less_slices_twice :
  fst <$> Less 2 slices_heap (SortableValues two_slices) 0 1 = Some true ∧
  fst <$> (Less 2 slices_heap (SortableValues two_slices) 0 1
           ≫= λ r, Less 2 slices_heap r.2 0 1) = Some false.
Proof. vm_compute. done. Qed.

(** ** Rendering of errors *)

Lemma append_assoc (a b c : string) : (a +:+ b) +:+ c = a +:+ (b +:+ c).
Proof.
  induction a as [|x a IH]; [reflexivity|].
  change (String x ((a +:+ b) +:+ c) = String x (a +:+ (b +:+ c))).
  by rewrite IH.
Qed.

Lemma append_nil_r (a : string) : a +:+ "" = a.
Proof.
  induction a as [|x a IH]; [reflexivity|].
  change (String x (a +:+ "") = String x a). by rewrite IH.
Qed.

Section Error_facts.
Context {Ctx Iface Location : Type} `{!EqDecision Location}.
Variable PathString : Ctx → string.
Variable ToString : Iface → string.
Variable IndentStringIn : string → string → string.
Variable IsInitialized : Location → bool.
Variable BehindCmp : Location → bool.
Variable LocationString : Location → string.
Variable zeroContext : Ctx.
Variable zeroIface : Iface.
Variable zeroLocation : Location.
Variable color : ctxerr.Colors.

Abbreviation Error := (ctxerr.Error Ctx Iface Location).
Abbreviation Append := (ctxerr.Append PathString ToString IndentStringIn
                      IsInitialized BehindCmp LocationString zeroLocation color).
Abbreviation rendered_in_order :=
  (ctxerr.rendered_in_order PathString ToString IndentStringIn IsInitialized
     BehindCmp LocationString zeroContext zeroIface zeroLocation color).

Lemma write_prefix (prefix buf : string) :
  (if decide (prefix ≠ "") then buf +:+ prefix else buf) = buf +:+ prefix.
Proof.
  case_decide as H; [done|]. subst. by rewrite append_nil_r.
Qed.

Lemma writeEolPrefix_eol (prefix buf : string) :
  ctxerr.writeEolPrefix prefix buf = buf +:+ ctxerr.eol prefix.
Proof.
  unfold ctxerr.writeEolPrefix, ctxerr.eol. case_decide as H; [done|].
  subst. by rewrite append_nil_r.
Qed.

Lemma write_title_message (path msg buf : string) :
  ctxerr.write_title color path msg buf
  = buf +:+ ctxerr.message_part color path msg.
Proof.
  unfold ctxerr.write_title, ctxerr.message_part.
  destruct (String.index 0 "%%" msg); by rewrite !append_assoc.
Qed.

Lemma Append_buf : ∀ (e : Error) (buf prefix : string),
  Append e buf prefix = buf +:+ Append e "" prefix.
Proof.
  fix IH 1. intros [| |ctx msg got expected summary loc origin next] buf prefix.
  - cbn. by rewrite append_nil_r.
  - cbn [ctxerr.Append]. rewrite !write_prefix, !append_assoc. done.
  - cbn [ctxerr.Append]. rewrite !write_prefix, !write_title_message,
      !writeEolPrefix_eol.
    destruct summary as [s|], origin as [o|], next as [n|],
      (ctxerr.location_guard IsInitialized BehindCmp zeroLocation loc _);
      rewrite ?writeEolPrefix_eol;
      repeat match goal with
      | |- context [ctxerr.Append _ _ _ _ _ _ _ _ ?x (?b +:+ ?c) ?p] =>
          rewrite (IH x (b +:+ c) p)
      end;
      rewrite ?append_assoc; cbn [String.append]; reflexivity.
Qed.

Lemma Append_node ctx msg got expected summary loc origin next buf prefix :
  Append (ctxerr.MkError ctx msg got expected summary loc origin next)
    buf prefix
  = buf +:+ prefix +:+ ctxerr.message_part color (PathString ctx) msg +:+
    ctxerr.values_part ToString IndentStringIn color got expected summary
      prefix +:+
    ctxerr.origin_part PathString ToString IndentStringIn IsInitialized
      BehindCmp LocationString zeroLocation color origin prefix +:+
    ctxerr.location_part IsInitialized BehindCmp LocationString zeroLocation
      loc next prefix +:+
    ctxerr.next_part PathString ToString IndentStringIn IsInitialized
      BehindCmp LocationString zeroLocation color next prefix.
Proof.
  cbn [ctxerr.Append]. rewrite !write_prefix, !write_title_message,
    !writeEolPrefix_eol.
  unfold ctxerr.values_part, ctxerr.origin_part, ctxerr.location_part,
    ctxerr.location_line, ctxerr.next_part.
  destruct summary as [s|], origin as [o|], next as [n|],
    (ctxerr.location_guard IsInitialized BehindCmp zeroLocation loc _);
    rewrite ?writeEolPrefix_eol;
    repeat match goal with
    | |- context [ctxerr.Append _ _ _ _ _ _ _ _ ?x (?b +:+ ?c) ?p] =>
        rewrite (Append_buf x (b +:+ c) p)
    end;
    cbn [ctxerr.GotString ctxerr.ExpectedString];
    rewrite ?append_assoc, ?append_nil_r; cbn [String.append]; reflexivity.
Qed.

(** Claim C5, amended.  For every error node other than the two
    sentinels, [Append] adds to the buffer, in this order: the prefix and
    the message (the path put at the first ["%%"], else the path, [": "]
    and the message), the got and expected values or the summary, the
    origin if there is one, the location line if it is due, and the next
    sibling if there is one.  [BooleanError] adds nothing;
    [ErrTooManyErrors] adds only the prefix and its message. *)
Theorem Append_order :
  (∀ ctx msg got expected summary loc origin next buf prefix,
     let e := ctxerr.MkError ctx msg got expected summary loc origin next in
     Append e buf prefix = buf +:+ rendered_in_order e prefix) ∧
  (∀ buf prefix, Append ctxerr.BooleanError buf prefix = buf) ∧
  (∀ buf prefix,
     Append ctxerr.ErrTooManyErrors buf prefix
     = buf +:+ prefix +:+ ctxerr.TitleOn color +:+
       "Too many errors (use TESTDEEP_MAX_ERRORS=-1 to see all)" +:+
       ctxerr.TitleOff color).
Proof.
  split; [|split].
  - intros. subst e. rewrite Append_node. reflexivity.
  - reflexivity.
  - intros. cbn [ctxerr.Append]. rewrite write_prefix, !append_assoc. done.
Qed.

(** Claim C10.  For a node, [Append] adds the line
    ["[under TestDeep operator ...]"] between the origin and the next
    sibling exactly when the node's location is initialized, is not
    behind a Cmp function, and the node has no next sibling or one with
    another location; in every other case nothing is added there. *)
Theorem Append_location_line ctx msg got expected summary loc origin next
    buf prefix :
  let e := ctxerr.MkError ctx msg got expected summary loc origin next in
  let before :=
    buf +:+ prefix +:+ ctxerr.message_part color (PathString ctx) msg +:+
    ctxerr.values_part ToString IndentStringIn color got expected summary
      prefix +:+
    ctxerr.origin_part PathString ToString IndentStringIn IsInitialized
      BehindCmp LocationString zeroLocation color origin prefix in
  let after :=
    ctxerr.next_part PathString ToString IndentStringIn IsInitialized
      BehindCmp LocationString zeroLocation color next prefix in
  let shown :=
    IsInitialized loc = true ∧ BehindCmp loc = false ∧
    (next = None ∨
     ∃ n, next = Some n ∧ ctxerr.Location_of zeroLocation n ≠ loc) in
  (shown →
   Append e buf prefix
   = before +:+ ctxerr.location_line LocationString loc prefix +:+ after) ∧
  (¬ shown → Append e buf prefix = before +:+ after).
Proof.
  intros e before after shown. subst e before after shown.
  rewrite Append_node. unfold ctxerr.location_part, ctxerr.location_guard.
  split.
  - intros (-> & -> & Hn). cbn [andb negb].
    destruct Hn as [->|(n & -> & Hn)]; [|rewrite bool_decide_true by done];
      by rewrite !append_assoc.
  - intros Hno.
    destruct (IsInitialized loc) eqn:Hi, (BehindCmp loc) eqn:Hb; cbn [andb negb];
      try by rewrite !append_assoc.
    destruct next as [n|].
    + case_bool_decide as Hn; [|by rewrite !append_assoc].
      exfalso. apply Hno. split_and!; [done..|right; eauto].
    + exfalso. apply Hno. split_and!; [done..|by left].
Qed.
End Error_facts.

Lemma Append_order_counterexample :
  plain.Append ctxerr.ErrTooManyErrors "" ""
    ≠ plain.rendered_in_order ctxerr.ErrTooManyErrors "" ∧
  plain.Append ctxerr.BooleanError "" ""
    ≠ plain.rendered_in_order ctxerr.BooleanError "".
Proof. split; vm_compute; intros [=]. Qed.

Lemma Append_location_line_witness :
  plain.Append plain.third "" ""
    = ("DATA[2]: values differ" +:+ nl +:+ tab +:+ "     got: 3" +:+ nl +:+
       tab +:+ "expected: 4") +:+
      plain.location_line ("Between at a.go:9", false) "" +:+ "" ∧
  plain.Append plain.first "" ""
    = ("DATA[0]: values differ" +:+ nl +:+ tab +:+ "     got: 0" +:+ nl +:+
       tab +:+ "expected: 1") +:+
      nl +:+ plain.Append plain.second "" "".
Proof.
  split.
  - apply (Append_location_line (λ path : string, path) (λ x : string, x)
             (λ text indent, text) plain.IsInitialized snd fst ("", false)
             plain.colors "DATA[2]" "values differ" "3" "4" None
             ("Between at a.go:9", false) None None "" "").
    vm_compute. auto.
  - apply (Append_location_line (λ path : string, path) (λ x : string, x)
             (λ text indent, text) plain.IsInitialized snd fst ("", false)
             plain.colors "DATA[0]" "values differ" "0" "1" None
             ("All at a.go:7", false) None (Some plain.second) "" "").
    intros (_ & _ & [H|(n & [= <-] & Hn)]); [done|]. by apply Hn.
Defined.

(** ** The operators *)

Section Shallow_facts.
Context {Ctx : Type}.
Variable BooleanError : Ctx → bool.

Abbreviation Shallow_Match := (td.Shallow_Match BooleanError).

Lemma Shallow_built (expected : value) (s : td.tdShallow) :
  td.Shallow expected = Returns s →
  td.shallow_kind (kind_of expected) = true ∧
  td.expectedKind s = kind_of expected ∧
  td.identity_pointer expected = Some (td.expectedPointer s).
Proof.
  destruct expected as [|? ?|? [] ?|? [] ?|? [] ?|? [] ? ?|? ? ?|? ?|? ? ?
                        |? ? ?|? ?|? ?|? ? ?|? ?|? ?|? ?];
    cbn; intros [= <-]; done.
Qed.

Lemma Shallow_Match_cases (s : td.tdShallow) (ctx : Ctx) (got : value) :
  td.shallow_kind (td.expectedKind s) = true →
  (kind_of got = td.expectedKind s ∧
   td.identity_pointer got = Some (td.expectedPointer s) ∧
   Shallow_Match s ctx got = Returns td.Nil) ∨
  (¬ (kind_of got = td.expectedKind s ∧
      td.identity_pointer got = Some (td.expectedPointer s)) ∧
   ∃ e, Shallow_Match s ctx got = Returns e ∧ e ≠ td.Nil).
Proof.
  intros Hk. unfold td.Shallow_Match.
  destruct (decide (kind_of got ≠ td.expectedKind s)) as [Hne|Heq].
  { right. split; [naive_solver|]. destruct (BooleanError ctx); eauto. }
  apply dec_stable in Heq. rewrite <- Heq in Hk.
  assert (∃ p, td.identity_pointer got = Some p ∧
            (if decide (td.expectedKind s = KString)
             then Some (stringPointer (value_String got))
             else Pointer got) = Some p) as (p & Hp & ->).
  { rewrite <- Heq.
    destruct got as [|? ?|? [] ?|? [] ?|? [] ?|? [] ? ?|? ? ?|? ?|? ? ?
                     |? ? ?|? ?|? ?|? ? ?|? ?|? ?|? ?];
      cbn in Hk |- *; try done; eauto. }
  rewrite Hp. destruct (decide (p ≠ td.expectedPointer s)) as [Hp'|Hp'].
  - right. split; [naive_solver|]. destruct (BooleanError ctx); eauto.
  - left. apply dec_stable in Hp'. subst. done.
Qed.

(** Claim C3.  For a Shallow operator built from [expected], [Match]
    returns nil exactly when [got] has the kind of [expected] and the
    same identity pointer.  Strings are compared by the address of their
    bytes: a prefix of the expected string that shares its bytes matches
    though it is shorter, and a string with the same text at another
    address does not. *)
Theorem Shallow_Match_iff (expected : value) (s : td.tdShallow) :
  td.Shallow expected = Returns s →
  (∀ ctx got,
     Shallow_Match s ctx got = Returns td.Nil ↔
     kind_of got = kind_of expected ∧
     td.identity_pointer got = td.identity_pointer expected) ∧
  (∀ ctx t d text t' n,
     expected = VString t d text →
     Shallow_Match s ctx (VString t' d (String.substring 0 n text))
     = Returns td.Nil) ∧
  (∀ ctx t d text t' d',
     expected = VString t d text → d' ≠ d →
     Shallow_Match s ctx (VString t' d' text) ≠ Returns td.Nil).
Proof.
  intros (Hk & Hkind & Hptr)%Shallow_built.
  assert (∀ ctx got,
     Shallow_Match s ctx got = Returns td.Nil ↔
     kind_of got = kind_of expected ∧
     td.identity_pointer got = td.identity_pointer expected) as Hiff.
  { intros ctx got. rewrite Hptr, <- Hkind. rewrite <- Hkind in Hk.
    destruct (Shallow_Match_cases s ctx got Hk)
      as [(? & ? & ->)|(Hn & e & -> & He)]; [done|].
    split; [intros [= ->]; done|]. intros []; by destruct Hn. }
  split; [exact Hiff|]. split.
  - intros ctx t d text t' n ->. apply Hiff. done.
  - intros ctx t d text t' d' -> Hd [_ [= ?]]%Hiff. done.
Qed.

Lemma Shallow_Match_returns (s : td.tdShallow) (ctx : Ctx) (got : value) :
  td.shallow_kind (td.expectedKind s) = true →
  ∃ e, Shallow_Match s ctx got = Returns e.
Proof.
  intros Hk. destruct (Shallow_Match_cases s ctx got Hk)
    as [(? & ? & ->)|(_ & e & -> & _)]; eauto.
Qed.
End Shallow_facts.

Section Tag_facts.
Context {Ctx : Type}.
Variable CheckTag : string → option string.
Variable Bad : string → list string → string.
Variable deepValueEqual :
  Ctx → value → @td.boxed Ctx → go (@td.matched Ctx).

Abbreviation Tag := (td.Tag CheckTag Bad).
Abbreviation Tag_Match := (td.Tag_Match deepValueEqual).

(** Claim C9.  For an operator built by [Tag name expectedValue],
    [Match] is [deepValueEqual] on the observed value and
    [expectedValue]; [TypeBehind] is that of the wrapped operator when
    [expectedValue] is one, else the type of [expectedValue] (nil for
    untyped nil); and both are the same for any other name. *)
Theorem Tag_delegates (tag : string) (ev : @td.boxed Ctx) (t : td.tdTag) :
  Tag tag ev = Returns t →
  (∀ ctx got, Tag_Match t ctx got = deepValueEqual ctx got ev) ∧
  td.Tag_TypeBehind t
    = Returns (match ev with
               | td.Operator _ op => td.op_TypeBehind op
               | td.Plain v => type_of v
               end) ∧
  (∀ tag' t', Tag tag' ev = Returns t' →
     (∀ ctx got, Tag_Match t' ctx got = Tag_Match t ctx got) ∧
     td.Tag_TypeBehind t' = td.Tag_TypeBehind t).
Proof.
  unfold td.Tag. destruct (CheckTag tag); [done|]. intros [= <-].
  split_and!.
  - intros. by destruct ev.
  - destruct ev as [[]|]; done.
  - intros tag' t'. destruct (CheckTag tag'); [done|]. intros [= <-].
    split; [intros|]; by destruct ev.
Qed.
End Tag_facts.

Section Delay_facts.
Context {Ctx : Type}.
Variable Bad : string → list string → string.
Variable with_CurOperator : Ctx → @td.TestDeep Ctx → Ctx.

Abbreviation Delay := (td.Delay Bad).
Abbreviation goroutine_ok := (td.goroutine_ok with_CurOperator).
Abbreviation inv := (td.inv with_CurOperator).

(** *** Delay *)

Abbreviation invoke := (td.invoke with_CurOperator).
Abbreviation invoke_all := (td.invoke_all with_CurOperator).
Abbreviation forward := (td.forward with_CurOperator).
Abbreviation run := (td.run with_CurOperator).
Abbreviation sched_step := (td.sched_step with_CurOperator).

(** A method call is the three steps of its goroutine. *)
Lemma run_invoke (d : td.tdDelay) (c : td.call) :
  run [0; 0; 0]%nat (d, [td.Calling c])
  = ((invoke d c).1, [td.Finished (invoke d c).2]).
Proof.
  destruct c; cbn; unfold td.Delay_Match, td.Delay_String,
    td.Delay_TypeBehind, td.Delay_HandleInvalid, td.getOperator;
    by destruct (td.operator (td.once_Do d)).
Qed.

Lemma once_Do_built (f : nat → @td.TestDeep Ctx) (d : @td.tdDelay Ctx) :
  td.fresh f d ∨ td.built f d → td.built f (td.once_Do d).
Proof.
  unfold td.once_Do. intros [(Ho & Hr & Hop & Hd)|(Ho & Hr & Hop & Hd)];
    rewrite Ho; [|done]. unfold td.built. cbn. by rewrite Hr, Hd.
Qed.

Lemma invoke_built (f : nat → @td.TestDeep Ctx) (d : @td.tdDelay Ctx)
    (c : td.call) :
  td.fresh f d ∨ td.built f d →
  td.built f (invoke d c).1 ∧ (invoke d c).2 = forward (Some (f 0%nat)) c.
Proof.
  intros Hd%once_Do_built. pose proof Hd as (_ & _ & Hop & _).
  destruct c; cbn; unfold td.Delay_Match, td.Delay_String,
    td.Delay_TypeBehind, td.Delay_HandleInvalid, td.getOperator;
    rewrite Hop; done.
Qed.

Lemma invoke_all_built (f : nat → @td.TestDeep Ctx) (d : @td.tdDelay Ctx)
    (cs : list td.call) :
  td.built f d →
  td.built f (invoke_all d cs).1 ∧
  (invoke_all d cs).2 = forward (Some (f 0%nat)) <$> cs.
Proof.
  revert d. induction cs as [|c cs IH]; intros d Hd; [done|]. cbn.
  destruct (invoke_built f d c (or_intror Hd)) as [Hd' Hr].
  destruct (invoke d c) as [d' r]. cbn in *.
  destruct (IH d' Hd') as [Hd'' Hrs].
  destruct (invoke_all d' cs) as [d'' rs]. cbn in *. by subst.
Qed.

Lemma goroutine_ok_mono (f : nat → @td.TestDeep Ctx)
    (d d' : @td.tdDelay Ctx) (c : td.call)
    (g : td.goroutine) :
  (td.built f d → td.built f d') → goroutine_ok f d c g → goroutine_ok f d' c g.
Proof. destruct g; cbn; naive_solver. Qed.

Lemma inv_step (f : nat → @td.TestDeep Ctx) (cs : list td.call)
    (st : @td.tdDelay Ctx * list td.goroutine) (i : nat) :
  inv f cs st → inv f cs (sched_step st i).
Proof.
  destruct st as [d gs]. intros [Hd Hgs]. unfold td.sched_step. cbn.
  destruct (gs !! i) as [g|] eqn:Hg; [|done].
  destruct (Forall2_lookup_r _ _ _ _ _ Hgs Hg) as (c & Hc & Hok).
  assert (∀ d' g', (td.built f d → td.built f d') → goroutine_ok f d' c g' →
            Forall2 (goroutine_ok f d') cs (<[i:=g']> gs)) as Hset.
  { intros d' g' Hmono Hok'.
    rewrite <- (list_insert_id cs i c) by done.
    apply Forall2_insert; [|done].
    eapply Forall2_impl; [exact Hgs|]. intros; by eapply goroutine_ok_mono. }
  pose proof (once_Do_built f d Hd) as Hb.
  destruct g as [c'|c'|c' op|r]; cbn in *.
  - subst. split; [by right|]. apply Hset; [done..|]. done.
  - destruct Hok as [-> Hd']. split; [done|]. apply Hset; [done|].
    cbn. pose proof Hd' as (_ & _ & ? & _). done.
  - destruct Hok as (-> & -> & Hd'). split; [done|]. by apply Hset.
  - split; [done|]. by apply Hset.
Qed.

Lemma inv_run (f : nat → @td.TestDeep Ctx) (cs : list td.call) (sched : list nat)
    (st : @td.tdDelay Ctx * list td.goroutine) :
  inv f cs st → inv f cs (run sched st).
Proof.
  revert st. induction sched as [|i sched IH]; intros st Hst; [done|].
  cbn. apply IH. by apply inv_step.
Qed.

Lemma inv_init (f : nat → @td.TestDeep Ctx) (d : @td.tdDelay Ctx)
    (cs : list td.call) :
  td.fresh f d → inv f cs (d, td.Calling <$> cs).
Proof.
  intros Hd. split; [by left|]. cbn.
  apply Forall2_fmap_r, Forall_Forall2_diag, Forall_forall. by intros.
Qed.

(** Claim C2.  For a wrapper built by [Delay], the delayed function is
    run exactly once (and the operator it built that one time is kept)
    over any non-empty sequence of calls of [Match], [String],
    [TypeBehind], [HandleInvalid], each of which answers what the same
    method of that operator answers; and over any interleaving of
    concurrent calls it is run at most once, exactly once as soon as one
    goroutine is past [once.Do], and every finished call has answered
    what that one operator answers. *)
Theorem Delay_once (f : nat → td.TestDeep) (d0 : td.tdDelay) :
  Delay (Some f) = Returns d0 →
  (∀ c cs,
     td.runs (invoke_all d0 (c :: cs)).1 = 1%nat ∧
     td.operator (invoke_all d0 (c :: cs)).1 = Some (f 0%nat) ∧
     (invoke_all d0 (c :: cs)).2 = forward (Some (f 0%nat)) <$> (c :: cs)) ∧
  (∀ cs sched,
     let st := run sched (d0, td.Calling <$> cs) in
     (td.runs st.1 ≤ 1)%nat ∧
     (∀ i g, st.2 !! i = Some g → (∀ c, g ≠ td.Calling c) →
        td.runs st.1 = 1%nat ∧ td.operator st.1 = Some (f 0%nat)) ∧
     (∀ i r, st.2 !! i = Some (td.Finished r) →
        ∃ c, cs !! i = Some c ∧ r = forward (Some (f 0%nat)) c)).
Proof.
  intros [= <-]. split.
  - intros c cs. cbn [td.invoke_all].
    assert (td.fresh f {| td.operator := None; td.once := false;
                       td.delayed := f; td.runs := 0 |}) as Hf by done.
    destruct (invoke_built f _ c (or_introl Hf)) as [Hd Hr].
    destruct (invoke _ c) as [d r]. cbn in *.
    destruct (invoke_all_built f d cs Hd) as [Hd' Hrs].
    destruct (invoke_all d cs) as [d' rs]. cbn in *. subst.
    by destruct Hd' as (_ & ? & ? & _).
  - intros cs sched st.
    assert (inv f cs st) as [Hd Hgs] by (apply inv_run, inv_init; done).
    split_and!.
    + destruct Hd as [(_ & -> & _)|(_ & -> & _)]; lia.
    + intros i g Hg Hnc.
      destruct (Forall2_lookup_r _ _ _ _ _ Hgs Hg) as (c & Hc & Hok).
      assert (td.built f st.1) as (_ & ? & ? & _); [|done].
      destruct g as [c'|c'|c' op|r]; cbn in Hok;
        [by destruct (Hnc c')|naive_solver..].
    + intros i r Hg.
      destruct (Forall2_lookup_r _ _ _ _ _ Hgs Hg) as (c & Hc & Hok & _).
      eauto.
Qed.
End Delay_facts.

Example run_to_end_sample :
  let st := td.run sample.with_CurOperator (td.run_to_end 2)
              (sample.wrapper,
               td.Calling <$> [td.CallString; td.CallHandleInvalid]) in
  td.runs st.1 = 1%nat ∧
  st.2 = [td.Finished (td.ReplyString (Returns "first"));
          td.Finished (td.ReplyHandleInvalid (Returns false))].
Proof. split; reflexivity. Qed.

Section constructors.
Context {Ctx : Type}.
Variable BooleanError : Ctx → bool.
Variable CheckTag : string → option string.
Variable Bad : string → list string → string.
Variable deepValueEqual :
  Ctx → value → @td.boxed Ctx → go (@td.matched Ctx).
Variable with_CurOperator : Ctx → @td.TestDeep Ctx → Ctx.

(** Claim C6.  The constructors validate their arguments when called:
    [Shallow] panics exactly on a value whose kind is none of chan, func,
    map, ptr, slice, unsafe pointer, string, and the [Match] of an
    operator it built always returns; [Tag] panics exactly when
    [CheckTag] rejects the name, and the [Match] of an operator it built
    is the comparison with the wrapped value; [Delay] panics exactly on
    a nil function, and every method of an operator it built forwards
    to a built operator. *)
Theorem constructors_validate :
  (∀ v, (∃ msg, td.Shallow v = Panics msg) ↔
        td.shallow_kind (kind_of v) = false) ∧
  (∀ v s ctx got, td.Shallow v = Returns s →
     ∃ e, td.Shallow_Match BooleanError s ctx got = Returns e) ∧
  (∀ tag (ev : @td.boxed Ctx),
     (∃ msg, td.Tag CheckTag Bad tag ev = Panics msg) ↔
     CheckTag tag ≠ None) ∧
  (∀ tag (ev : @td.boxed Ctx) t ctx got,
     td.Tag CheckTag Bad tag ev = Returns t →
     td.Tag_Match deepValueEqual t ctx got = deepValueEqual ctx got ev) ∧
  (∀ f : option (nat → @td.TestDeep Ctx),
     (∃ msg, td.Delay Bad f = Panics msg) ↔ f = None) ∧
  (∀ f d, td.Delay Bad (Some f) = Returns d →
     ∀ c, ∃ op, (td.invoke with_CurOperator d c).2
                = td.forward with_CurOperator (Some op) c).
Proof.
  split_and!.
  - intros v. split.
    + intros [msg Hp]. destruct (td.shallow_kind (kind_of v)) eqn:Hk; [|done].
      destruct v as [|? ?|? [] ?|? [] ?|? [] ?|? [] ? ?|? ? ?|? ?|? ? ?
                     |? ? ?|? ?|? ?|? ? ?|? ?|? ?|? ?]; done.
    + intros Hk.
      destruct v as [|? ?|? [] ?|? [] ?|? [] ?|? [] ? ?|? ? ?|? ?|? ? ?
                     |? ? ?|? ?|? ?|? ? ?|? ?|? ?|? ?]; cbn in *; eauto; done.
  - intros v s ctx got (Hk & Hkind & _)%Shallow_built.
    apply Shallow_Match_returns. by rewrite Hkind.
  - intros tag ev. unfold td.Tag. destruct (CheckTag tag); split;
      intros H; try done; eauto. by destruct H.
  - intros tag ev t ctx got. unfold td.Tag, td.Tag_Match.
    destruct (CheckTag tag); [done|]. intros [= <-]. by destruct ev.
  - intros [f|]; split; intros H; try done; cbn; eauto. by destruct H.
  - intros f d [= <-] c. exists (f 0%nat). by destruct c.
Qed.
End constructors.

Lemma Shallow_Match_iff_witness :
  td.Shallow_Match (λ ctx : bool, ctx)
    {| td.expectedKind := KString; td.expectedPointer := 100;
       td.expectedStr := {| str_data := 100; str_text := "foobar yes!" |} |}
    false (VString t_string 100 (String.substring 0 1 "foobar yes!"))
  = Returns td.Nil.
Proof.
  apply (Shallow_Match_iff (λ ctx : bool, ctx) sample.foobar _ eq_refl)
    with (t := t_string).
  reflexivity.
Defined.

Lemma constructors_validate_witness :
  (∃ msg, td.Shallow (VInt t_int I0 3) = Panics msg) ∧
  (∃ e, td.Shallow_Match (λ ctx : bool, ctx)
          {| td.expectedKind := KString; td.expectedPointer := 100;
             td.expectedStr := {| str_data := 100;
                                  str_text := "foobar yes!" |} |}
          false (VInt t_int I0 3) = Returns e) ∧
  (∃ msg, td.Tag (Ctx := bool) sample.CheckTag sample.Bad ""
            (td.Plain (VInt t_int I0 3)) = Panics msg) ∧
  (∃ msg, td.Delay (Ctx := bool) sample.Bad None = Panics msg).
Proof.
  destruct (constructors_validate (λ ctx : bool, ctx) sample.CheckTag
              sample.Bad sample.deepValueEqual sample.with_CurOperator)
    as (HS & HM & HT & _ & HD & _).
  split_and!.
  - apply HS. reflexivity.
  - apply (HM sample.foobar). reflexivity.
  - apply HT. vm_compute. intros [=].
  - apply HD. reflexivity.
Defined.

Lemma Tag_delegates_witness :
  td.Tag_TypeBehind (Ctx := bool)
    {| td.tdSmugglerBase_ :=
         {| td.expectedValue := td.Plain (VInt t_int I0 3);
            td.isTestDeeper := false |};
       td.tag := "age" |}
  = Returns (Some t_int).
Proof.
  apply (Tag_delegates (Ctx := bool) sample.CheckTag sample.Bad
           sample.deepValueEqual "age" (td.Plain (VInt t_int I0 3)) _ eq_refl).
Defined.

Lemma Delay_once_witness :
  td.runs (td.invoke_all sample.with_CurOperator sample.wrapper
             [td.CallString; td.CallMatch false Invalid; td.CallString]).1
  = 1%nat ∧
  (td.runs (td.run sample.with_CurOperator [1; 0; 1; 0; 0; 1]%nat
              (sample.wrapper,
               td.Calling <$> [td.CallString; td.CallTypeBehind])).1 ≤ 1)%nat.
Proof.
  destruct (Delay_once sample.Bad sample.with_CurOperator sample.build
              sample.wrapper eq_refl) as [Hseq Hconc].
  split.
  - apply Hseq.
  - apply (Hconc [td.CallString; td.CallTypeBehind] [1; 0; 1; 0; 0; 1]%nat).
Defined.
